(** * scripts/main.js: the image toggle and the name greeter

    A shallow embedding of the page script of matthewritch.com.  The script
    touches three things of the browser: the attributes of the element
    matched by [img], the text of the heading matched by
    [h2[name='welcome-bar']], and [localStorage]; and it asks the user
    through the blocking [prompt].  The page below holds exactly these, a
    counter of the prompts made so far and the trace of every browser call,
    so that statements about "how many times" and "in which order" can be
    made.  The three [querySelector] calls are taken to succeed, as the
    markup around the script provides the elements. *)

From stdpp Require Import base strings gmap list.

(** ** Values

    [prompt], [localStorage.getItem] and [getAttribute] return a string or
    [null]; no other kind of value reaches the script. *)

Inductive value : Type :=
  | Null
  | Str (s : string).

Global Instance value_eq_dec : EqDecision value.
Proof. solve_decision. Defined.

(** JavaScript's ToBoolean: [null] and the empty string are falsy. *)
Definition truthy (v : value) : bool :=
  match v with
  | Null => false
  | Str EmptyString => false
  | Str (String _ _) => true
  end.

(** JavaScript's ToString, as applied by [+] on strings and by
    [localStorage.setItem] to its value argument. *)
Definition to_string (v : value) : string :=
  match v with
  | Null => "null"
  | Str s => s
  end.

(** [a === b] on strings and [null]. *)
Definition strict_eq (a b : value) : bool := bool_decide (a = b).

(** What a lookup in a string map hands back to the script. *)
Definition of_lookup (o : option string) : value :=
  match o with
  | Some s => Str s
  | None => Null
  end.

(** ** The page *)

Inductive event : Type :=
  | Prompt (message : string) (answer : value)
  | GetItem (key : string)
  | SetItem (key val : string)
  | SetTextContent (text : string)
  | GetAttribute (attr : string)
  | SetAttribute (attr val : string).

Global Instance event_eq_dec : EqDecision event.
Proof. solve_decision. Defined.

Record page : Type := Page {
  myImage : gmap string string;      (* attributes of the img element *)
  myHeading : string;                (* textContent of the welcome bar *)
  localStorage : gmap string string;
  prompted : nat;                    (* prompt invocations made so far *)
  trace : list event                 (* browser calls, oldest first *)
}.

Definition record (e : event) (p : page) : page :=
  Page (myImage p) (myHeading p) (localStorage p) (prompted p) (trace p ++ [e]).

(** ** Script computations

    A computation runs on a page and either returns, with a result and the
    page it leaves, or has not returned within its call budget ([None]). *)

Definition js (A : Type) : Type := page → option (A * page).

Global Instance js_ret : MRet js := λ A a p, Some (a, p).

Global Instance js_bind : MBind js := λ A B f m p,
  match m p with
  | Some (a, p') => f a p'
  | None => None
  end.

Definition getItem (key : string) : js value := λ p,
  Some (of_lookup (localStorage p !! key), record (GetItem key) p).

Definition setItem (key : string) (v : value) : js unit := λ p,
  let p := record (SetItem key (to_string v)) p in
  Some (tt, Page (myImage p) (myHeading p)
                 (<[key := to_string v]> (localStorage p))
                 (prompted p) (trace p)).

Definition set_textContent (text : string) : js unit := λ p,
  let p := record (SetTextContent text) p in
  Some (tt, Page (myImage p) text (localStorage p) (prompted p) (trace p)).

Definition getAttribute (attr : string) : js value := λ p,
  Some (of_lookup (myImage p !! attr), record (GetAttribute attr) p).

Definition setAttribute (attr val : string) : js unit := λ p,
  let p := record (SetAttribute attr val) p in
  Some (tt, Page (<[attr := val]> (myImage p)) (myHeading p)
                 (localStorage p) (prompted p) (trace p)).

(** ** ImageToggler *)

Definition default_src : string := "images/user-image.png".
Definition alternate_src : string :=
  "https://i5.walmartimages.com/asr/87061092-70de-4a9b-ae77-b0f20a9c54d5_1.520c5864c2391e9f24041a1faa3d5d3a.jpeg?odnWidth=612&odnHeight=612&odnBg=ffffff".

Definition myImage_onclick : js unit :=
  mySrc ← getAttribute "src";
  if strict_eq mySrc (Str default_src)
  then setAttribute "src" alternate_src
  else setAttribute "src" default_src.

(** [n] clicks in a row. *)
Fixpoint clicks (n : nat) : js unit :=
  match n with
  | 0 => mret tt
  | S n => myImage_onclick;; clicks n
  end.

(** The two sources the toggle writes. *)
Definition known_srcs : gset string := {[ default_src; alternate_src ]}.

(** The page a click leaves when its handler writes [src]. *)
Definition shown (src : string) (p : page) : page :=
  Page (<["src" := src]> (myImage p)) (myHeading p) (localStorage p)
       (prompted p)
       (trace p ++ [GetAttribute "src"; SetAttribute "src" src]).

(** The image shows one of the two sources the toggle knows. *)
Definition src_known (p : page) : Prop :=
  ∃ s, myImage p !! "src" = Some s ∧ s ∈ known_srcs.

(** ** NameGreeter *)

Section NameGreeter.

(** The user: the answer given to the [i]-th prompt of the session,
    [Null] when the dialog is dismissed. *)
Variable user : nat → value.

Definition prompt (message : string) : js value := λ p,
  let answer := user (prompted p) in
  let p := record (Prompt message answer) p in
  Some (answer, Page (myImage p) (myHeading p) (localStorage p)
                     (S (prompted p)) (trace p)).

Definition greeting (v : value) : string :=
  "Welcome, " +:+ to_string v +:+ "!".

(** [setUserName] calls itself with no measure going down, so the
    embedding counts the calls it may still make. *)
Fixpoint setUserName (calls : nat) : js unit :=
  match calls with
  | 0 => λ _, None
  | S calls =>
      myName ← prompt "Please enter your name.";
      (if negb (truthy myName) then setUserName calls else mret tt);;
      setItem "name" myName;;
      set_textContent (greeting myName)
  end.

(** The statements run when the script is loaded. *)
Definition page_load (calls : nat) : js unit :=
  stored ← getItem "name";
  if negb (truthy stored)
  then setUserName calls
  else
    storedName ← getItem "name";
    set_textContent (greeting storedName).

Definition myButton_onclick (calls : nat) : js unit :=
  setUserName calls.

End NameGreeter.

(** ** Runs of [setUserName] without a call budget

    The page a call leaves behind is built from two page transformers: the
    page after the prompt, and the page after the two writes that end
    every invocation. *)

Section Runs.

Variable user : nat → value.

Definition asked (p : page) : page :=
  Page (myImage p) (myHeading p) (localStorage p) (S (prompted p))
       (trace p ++ [Prompt "Please enter your name." (user (prompted p))]).

Definition greeted (v : value) (p : page) : page :=
  Page (myImage p) (greeting v)
       (<["name" := to_string v]> (localStorage p)) (prompted p)
       (trace p ++ [SetItem "name" (to_string v);
                    SetTextContent (greeting v)]).

(** [SetUserName p p']: a call of [setUserName] entered on page [p]
    returns and leaves page [p'].  One rule per branch of the [if]; in
    both, the statements after the [if] run with the answer of this
    invocation. *)
Inductive SetUserName : page → page → Prop :=
  | SetUserName_else p :
      truthy (user (prompted p)) = true →
      SetUserName p (greeted (user (prompted p)) (asked p))
  | SetUserName_retry p p' :
      truthy (user (prompted p)) = false →
      SetUserName (asked p) p' →
      SetUserName p (greeted (user (prompted p)) p').

(** The first answer from prompt number [from] on that is accepted is
    answer number [from + k]. *)
Definition first_accepted (from k : nat) : Prop :=
  truthy (user (from + k)) = true ∧
  ∀ i, i < k → truthy (user (from + i)) = false.

(** Every answer from prompt number [from] on is empty or declined. *)
Definition never_accepted (from : nat) : Prop :=
  ∀ i, truthy (user (from + i)) = false.

(** The [n] prompts made from prompt number [from] on, and the writes of
    the same [n] invocations in the order the returns perform them. *)
Definition asks (from n : nat) : list event :=
  (λ i, Prompt "Please enter your name." (user i)) <$> seq from n.

Definition writes_of (i : nat) : list event :=
  [SetItem "name" (to_string (user i)); SetTextContent (greeting (user i))].

Definition writes_back (from n : nat) : list event :=
  reverse (seq from n) ≫= writes_of.

End Runs.

(** ** Reading a trace *)

Definition is_prompt (e : event) : bool :=
  match e with Prompt _ _ => true | _ => false end.

Definition is_store_write (key : string) (e : event) : bool :=
  match e with SetItem k _ => bool_decide (k = key) | _ => false end.

Definition is_heading_write (e : event) : bool :=
  match e with SetTextContent _ => true | _ => false end.

Definition count (f : event → bool) (l : list event) : nat :=
  length (List.filter f l).

(** The heading texts written, oldest first. *)
Definition heading_writes (l : list event) : list string :=
  l ≫= λ e, match e with SetTextContent t => [t] | _ => [] end.

(** The events a run from [p] to [p'] added. *)
Definition events_since (p p' : page) : list event :=
  drop (length (trace p)) (trace p').

(** ** Example sessions *)

(** A user who gives the listed answers and then [later] for ever. *)
Definition answers (given : list value) (later : value) : nat → value :=
  λ i, default later (given !! i).

(** A page whose storage holds [store]; fresh otherwise. *)
Definition fresh (store : gmap string string) : page :=
  Page ∅ "" store 0 [].

(** The session of the retry test: two empty answers, then "Jo". *)
Definition empty_empty_Jo : nat → value :=
  answers [Str ""; Str ""; Str "Jo"] Null.

(** The page that session leaves when [setUserName] runs on a fresh page. *)
Definition Jo_page : page :=
  let u := empty_empty_Jo in
  greeted (Str "") (greeted (Str "")
    (greeted (Str "Jo") (asked u (asked u (asked u (fresh ∅)))))).

(** ** Further vocabulary for the frame and composition theorems *)

Definition is_attr_read (e : event) : bool :=
  match e with GetAttribute _ => true | _ => false end.

Definition is_attr_write (e : event) : bool :=
  match e with SetAttribute _ _ => true | _ => false end.

Definition is_store_access (e : event) : bool :=
  match e with GetItem _ | SetItem _ _ => true | _ => false end.

(** An event of the click handler: a read of the attribute [src], or a
    write of one of the two known sources to it. *)
Definition is_src_access (e : event) : Prop :=
  e = GetAttribute "src" ∨
  ∃ s, e = SetAttribute "src" s ∧ s ∈ known_srcs.

(** The source the image shows after [n ≥ 1] clicks, read off the source
    [src] it had before the first one and the parity of [n]. *)
Definition src_after (n : nat) (src : option string) : string :=
  if bool_decide (src = Some default_src)
  then (if Nat.even n then default_src else alternate_src)
  else (if Nat.even n then alternate_src else default_src).

(** Two pages agree on all that later code can read: everything but the
    trace. *)
Definition same_state (p q : page) : Prop :=
  myImage p = myImage q ∧ myHeading p = myHeading q ∧
  localStorage p = localStorage q ∧ prompted p = prompted q.

(** A stored name that page load takes as set: present and not empty. *)
Definition name_set (p : page) : Prop :=
  ∃ s, localStorage p !! "name" = Some s ∧ s ≠ "".

(** The session of the round-trip test, run by page load on a store that
    holds an unrelated key, and the page that run leaves. *)
Definition only_Alex : nat → value := answers [Str "Alex"] Null.

Definition Alex_page : page :=
  greeted (Str "Alex")
    (asked only_Alex (record (GetItem "name") (fresh {[ "theme" := "dark" ]}))).

(** A reload of the page [Jo_page] in which the user answers "Jo" at once,
    and the page that reload leaves. *)
Definition Jo_reloaded : page :=
  greeted (Str "Jo")
    (asked (answers [Str "Jo"] Null)
       (record (GetItem "name") (fresh (localStorage Jo_page)))).

(** * Theorems *)

(** The two statements after the [if] of [setUserName]. *)
Lemma store_and_greet v p :
  (setItem "name" v;; set_textContent (greeting v)) p = Some (tt, greeted v p).
Proof.
  unfold mbind, js_bind, setItem, set_textContent, record, greeted; cbn.
  by rewrite <- app_assoc.
Qed.

Lemma count_app f l1 l2 : count f (l1 ++ l2) = count f l1 + count f l2.
Proof. unfold count. by rewrite List.filter_app, length_app. Qed.

Lemma events_since_app p p' l : trace p' = trace p ++ l → events_since p p' = l.
Proof. unfold events_since. intros ->. by rewrite drop_app_length. Qed.

Section NameGreeterFacts.

Variable user : nat → value.

Lemma setUserName_step calls p :
  setUserName user (S calls) p =
    if truthy (user (prompted p))
    then Some (tt, greeted (user (prompted p)) (asked user p))
    else match setUserName user calls (asked user p) with
         | Some (_, p') => Some (tt, greeted (user (prompted p)) p')
         | None => None
         end.
Proof.
  cbn [setUserName]. unfold mbind at 1 2, js_bind at 1 2.
  unfold prompt, record; cbn. fold (asked user p).
  destruct (truthy (user (prompted p))); cbn.
  - apply store_and_greet.
  - destruct (setUserName user calls (asked user p)) as [[[] p']|]; [|done].
    apply store_and_greet.
Qed.

Lemma setUserName_more_calls calls calls' p r :
  setUserName user calls p = Some r → calls ≤ calls' →
  setUserName user calls' p = Some r.
Proof.
  revert calls' p r.
  induction calls as [|calls IH]; intros calls' p r Hrun Hle; [done|].
  destruct calls' as [|calls']; [lia|].
  rewrite setUserName_step in *.
  destruct (truthy (user (prompted p))); [done|].
  destruct (setUserName user calls (asked user p)) as [[[] q]|] eqn:Hin; [|done].
  by rewrite (IH calls' _ _ Hin) by lia.
Qed.

(** The budgeted function and the relation describe the same runs. *)
Lemma setUserName_SetUserName calls p p' :
  setUserName user calls p = Some (tt, p') → SetUserName user p p'.
Proof.
  revert p p'. induction calls as [|calls IH]; intros p p' Hrun; [done|].
  rewrite setUserName_step in Hrun.
  destruct (truthy (user (prompted p))) eqn:Hans.
  - injection Hrun as <-. by constructor.
  - destruct (setUserName user calls (asked user p)) as [[[] q]|] eqn:Hin; [|done].
    injection Hrun as <-. constructor; auto.
Qed.

Lemma SetUserName_setUserName p p' :
  SetUserName user p p' → ∃ calls, setUserName user calls p = Some (tt, p').
Proof.
  induction 1 as [p Hans|p p' Hans _ [calls IH]].
  - exists 1. rewrite setUserName_step. by rewrite Hans.
  - exists (S calls). rewrite setUserName_step. by rewrite Hans, IH.
Qed.

Lemma first_accepted_asked p k :
  first_accepted user (prompted p) (S k) →
  truthy (user (prompted p)) = false ∧
  first_accepted user (prompted (asked user p)) k.
Proof.
  intros [Hk Hbefore]. split.
  - specialize (Hbefore 0). rewrite Nat.add_0_r in Hbefore. apply Hbefore. lia.
  - cbn. split.
    + by rewrite Nat.add_succ_comm.
    + intros i Hi. rewrite Nat.add_succ_comm. apply Hbefore. lia.
Qed.

(** With the first accepted answer [k] prompts ahead, a budget of more
    than [k] calls is enough and one of [k] or less is not, and the run
    makes [k + 1] prompts. *)
Lemma setUserName_first_accepted k : ∀ p,
  first_accepted user (prompted p) k →
  ∃ p', (∀ calls, k < calls → setUserName user calls p = Some (tt, p')) ∧
        (∀ calls, calls ≤ k → setUserName user calls p = None) ∧
        prompted p' = prompted p + (k + 1).
Proof.
  induction k as [|k IH]; intros p Hk.
  - destruct Hk as [Hk _]. rewrite Nat.add_0_r in Hk.
    exists (greeted (user (prompted p)) (asked user p)). split_and!.
    + intros [|calls] ?; [lia|]. rewrite setUserName_step. by rewrite Hk.
    + intros calls ?. by replace calls with 0 by lia.
    + cbn. lia.
  - apply first_accepted_asked in Hk as [Hans Hk].
    destruct (IH _ Hk) as (q & Hrun & Hshort & Hq).
    exists (greeted (user (prompted p)) q). split_and!.
    + intros [|calls] ?; [lia|]. rewrite setUserName_step, Hans.
      by rewrite Hrun by lia.
    + intros [|calls] ?; [done|]. rewrite setUserName_step, Hans.
      by rewrite Hshort by lia.
    + cbn in *. lia.
Qed.

(** With no accepted answer ahead, no budget is enough. *)
Lemma setUserName_never_accepted calls : ∀ p,
  never_accepted user (prompted p) → setUserName user calls p = None.
Proof.
  induction calls as [|calls IH]; intros p Hnever; [done|].
  rewrite setUserName_step.
  pose proof (Hnever 0) as Hans. rewrite Nat.add_0_r in Hans. rewrite Hans.
  rewrite IH; [done|].
  intros i. specialize (Hnever (S i)).
  by rewrite Nat.add_succ_r in Hnever.
Qed.

(** The page a returning call leaves: the statements after the [if] of
    the outermost invocation run last, with the first answer. *)
Lemma SetUserName_leaves p p' :
  SetUserName user p p' →
  localStorage p' !! "name" = Some (to_string (user (prompted p))) ∧
  myHeading p' = greeting (user (prompted p)) ∧
  myImage p' = myImage p.
Proof.
  induction 1 as [p Hans|p p' Hans _ (_ & _ & IH)]; cbn.
  - by rewrite lookup_insert_eq.
  - by rewrite lookup_insert_eq.
Qed.

Lemma first_accepted_retry p k :
  truthy (user (prompted p)) = false →
  first_accepted user (prompted (asked user p)) k →
  first_accepted user (prompted p) (S k).
Proof.
  cbn. intros Hans [Hk Hbefore]. split.
  - by rewrite <- Nat.add_succ_comm.
  - intros [|i] Hi.
    + by rewrite Nat.add_0_r.
    + rewrite <- Nat.add_succ_comm. apply Hbefore. lia.
Qed.

Lemma asks_S from n :
  asks user from (S n) =
    Prompt "Please enter your name." (user from) :: asks user (S from) n.
Proof. done. Qed.

Lemma writes_back_S from n :
  writes_back user from (S n) =
    writes_back user (S from) n ++ writes_of user from.
Proof.
  unfold writes_back. cbn [seq]. rewrite reverse_cons, bind_app. cbn.
  by rewrite ?app_nil_r.
Qed.

(** The trace of a returning call: all the prompts first, then the two
    writes of every invocation, the last invocation's first. *)
Lemma SetUserName_trace p p' :
  SetUserName user p p' →
  ∃ k, first_accepted user (prompted p) k ∧
       prompted p' = prompted p + S k ∧
       trace p' = trace p ++ asks user (prompted p) (S k)
                          ++ writes_back user (prompted p) (S k).
Proof.
  induction 1 as [p Hans|p p' Hans _ (k & Hk & Hn & Htr)].
  - exists 0. split_and!.
    + split; [by rewrite Nat.add_0_r|lia].
    + cbn. lia.
    + cbn. by rewrite <- app_assoc.
  - exists (S k). split_and!.
    + by apply first_accepted_retry.
    + cbn in *. lia.
    + cbn [trace greeted]. rewrite Htr. cbn [trace asked prompted].
      rewrite (asks_S _ (S k)), (writes_back_S _ (S k)).
      rewrite <- !app_assoc. done.
Qed.

Lemma count_asks from n :
  count is_prompt (asks user from n) = n ∧
  count (is_store_write "name") (asks user from n) = 0 ∧
  count is_heading_write (asks user from n) = 0.
Proof.
  revert from. induction n as [|n IH]; intros from; [done|].
  rewrite asks_S. destruct (IH (S from)) as (IH1 & IH2 & IH3).
  unfold count in *. cbn. by rewrite IH1, IH2, IH3.
Qed.

Lemma count_writes_back from n :
  count is_prompt (writes_back user from n) = 0 ∧
  count (is_store_write "name") (writes_back user from n) = n ∧
  count is_heading_write (writes_back user from n) = n.
Proof.
  revert from. induction n as [|n IH]; intros from; [done|].
  rewrite writes_back_S, !count_app.
  destruct (IH (S from)) as (-> & -> & ->).
  unfold count. cbn. rewrite bool_decide_eq_true_2 by done.
  cbn. split_and!; lia.
Qed.

Lemma length_writes_back from n : length (writes_back user from n) = 2 * n.
Proof.
  revert from. induction n as [|n IH]; intros from; [done|].
  rewrite writes_back_S, length_app, IH. cbn. lia.
Qed.

(** The [i]-th pair of writes is that of invocation [n - 1 - i]: the
    deepest invocation writes first, the one entered first writes last. *)
Lemma writes_back_lookup from n i :
  i < n →
  writes_back user from n !! (2 * i) =
    Some (SetItem "name" (to_string (user (from + (n - 1 - i))))) ∧
  writes_back user from n !! (2 * i + 1) =
    Some (SetTextContent (greeting (user (from + (n - 1 - i))))).
Proof.
  revert from. induction n as [|n IH]; intros from Hi; [lia|].
  rewrite writes_back_S.
  destruct (decide (i = n)) as [->|Hne].
  - rewrite !lookup_app_r by (rewrite length_writes_back; lia).
    rewrite length_writes_back.
    replace (2 * n - 2 * n) with 0 by lia.
    replace (2 * n + 1 - 2 * n) with 1 by lia.
    replace (from + (S n - 1 - n)) with from by lia. done.
  - rewrite !lookup_app_l by (rewrite length_writes_back; lia).
    replace (from + (S n - 1 - i)) with (S from + (n - 1 - i)) by lia.
    apply IH. lia.
Qed.

(** What the page-load statements do on each side of their [if]. *)
Lemma page_load_unset calls p :
  truthy (of_lookup (localStorage p !! "name")) = false →
  page_load user calls p = setUserName user calls (record (GetItem "name") p).
Proof.
  intros Hunset. unfold page_load, mbind, js_bind, getItem. by rewrite Hunset.
Qed.

Lemma page_load_set calls p :
  truthy (of_lookup (localStorage p !! "name")) = true →
  page_load user calls p =
    Some (tt, Page (myImage p)
                   (greeting (of_lookup (localStorage p !! "name")))
                   (localStorage p) (prompted p)
                   (trace p ++ [GetItem "name"; GetItem "name";
                      SetTextContent
                        (greeting (of_lookup (localStorage p !! "name")))])).
Proof.
  intros Hset.
  unfold page_load, mbind, js_bind, getItem, set_textContent, record; cbn.
  rewrite Hset; cbn. by rewrite <- !app_assoc.
Qed.

(** On every completed run the heading shows the stored name, whichever
    answers were given. *)
Lemma page_load_heading_of_store calls p p' :
  page_load user calls p = Some (tt, p') →
  ∃ v, localStorage p' !! "name" = Some v ∧
       myHeading p' = "Welcome, " +:+ v +:+ "!".
Proof.
  destruct (truthy (of_lookup (localStorage p !! "name"))) eqn:Hstored.
  - rewrite page_load_set by done. intros [= <-]; cbn.
    destruct (localStorage p !! "name") as [v|]; [|done]. by exists v.
  - rewrite page_load_unset by done. intros Hrun.
    apply setUserName_SetUserName, SetUserName_leaves in Hrun as (Hv & Hh & _).
    eauto.
Qed.

End NameGreeterFacts.

(** ** The retry of [setUserName] *)

(** C1 (the code departs from it).  Run on the answers "", "", "Jo",
    [setUserName] returns after exactly three prompts, one per answer
    consumed, but the value it leaves under the key 'name' is the empty
    first answer and not "Jo": the two writes stand after the [if], so the
    two outer invocations write their own empty answers once the retry has
    returned. *)
Theorem setUserName_empty_empty_Jo :
  first_accepted empty_empty_Jo 0 2 ∧
  ∃ p', setUserName empty_empty_Jo 3 (fresh ∅) = Some (tt, p') ∧
        prompted p' = 3 ∧
        count is_prompt (trace p') = 3 ∧
        localStorage p' !! "name" = Some "" ∧
        localStorage p' !! "name" ≠ Some "Jo" ∧
        myHeading p' = "Welcome, !".
Proof.
  split.
  - split; [done|]. intros [|[|i]] Hi; [done|done|lia].
  - eexists. split; [vm_compute; reflexivity|].
    split_and!; try done; by vm_compute.
Qed.

(** C2 (the code departs from it).  Page load on an empty store with the
    answers "", "", "Jo" writes the heading three times: first with "Jo",
    then twice with the empty answer.  The heading does end up showing the
    stored value, but it was written with that value twice, and once with
    another value. *)
Theorem page_load_empty_empty_Jo :
  ∃ p', page_load empty_empty_Jo 3 (fresh ∅) = Some (tt, p') ∧
        localStorage p' !! "name" = Some "" ∧
        myHeading p' = "Welcome, " +:+ "" +:+ "!" ∧
        heading_writes (trace p') =
          ["Welcome, Jo!"; "Welcome, !"; "Welcome, !"] ∧
        count is_heading_write (trace p') = 3.
Proof.
  eexists. split; [vm_compute; reflexivity|].
  split_and!; by vm_compute.
Qed.

(** C3.  [setUserName] retries with no limit and no way out: when the
    first accepted answer is [k] prompts ahead (0-based), the call returns
    after exactly [k + 1] prompts, given a budget of more than [k] calls
    and with none smaller; when every answer ahead is empty or declined,
    the call returns under no budget, and no run of it exists. *)
Theorem setUserName_retries_without_limit (user : nat → value) (p : page) :
  (∀ k, first_accepted user (prompted p) k →
     ∃ p', SetUserName user p p' ∧
           (∀ calls, k < calls → setUserName user calls p = Some (tt, p')) ∧
           (∀ calls, calls ≤ k → setUserName user calls p = None) ∧
           prompted p' = prompted p + (k + 1) ∧
           count is_prompt (events_since p p') = k + 1) ∧
  (never_accepted user (prompted p) →
     (∀ calls, setUserName user calls p = None) ∧
     (∀ p', ¬ SetUserName user p p')).
Proof.
  split.
  - intros k Hk.
    destruct (setUserName_first_accepted user k p Hk) as (p' & Hrun & Hshort & Hn).
    exists p'. split_and!; try done.
    + apply (setUserName_SetUserName user (S k)), Hrun. lia.
    + assert (SetUserName user p p') as Hrel
        by (apply (setUserName_SetUserName user (S k)), Hrun; lia).
      apply SetUserName_trace in Hrel as (k' & _ & Hn' & Htr).
      assert (k' = k) as -> by lia.
      rewrite (events_since_app _ _ _ Htr), count_app.
      destruct (count_asks user (prompted p) (S k)) as (-> & _).
      destruct (count_writes_back user (prompted p) (S k)) as (-> & _). lia.
  - intros Hnever. split.
    + intros calls. by apply setUserName_never_accepted.
    + intros p' [calls Hrun]%SetUserName_setUserName.
      by rewrite setUserName_never_accepted in Hrun.
Qed.

Lemma setUserName_retries_without_limit_witness :
  (∃ p', SetUserName empty_empty_Jo (fresh ∅) p' ∧
         (∀ calls, 2 < calls →
            setUserName empty_empty_Jo calls (fresh ∅) = Some (tt, p')) ∧
         (∀ calls, calls ≤ 2 →
            setUserName empty_empty_Jo calls (fresh ∅) = None) ∧
         prompted p' = 0 + (2 + 1) ∧
         count is_prompt (events_since (fresh ∅) p') = 2 + 1) ∧
  ((∀ calls, setUserName (answers [Str ""; Null] (Str "")) calls (fresh ∅) = None) ∧
   (∀ p', ¬ SetUserName (answers [Str ""; Null] (Str "")) (fresh ∅) p')).
Proof.
  split.
  - apply (setUserName_retries_without_limit empty_empty_Jo (fresh ∅)).
    split; [reflexivity|].
    intros [|[|i]] Hi; [reflexivity|reflexivity|lia].
  - apply (setUserName_retries_without_limit _ (fresh ∅)).
    intros [|[|i]]; reflexivity.
Defined.

(** C10.  In every returning call of [setUserName] that makes [n] prompts,
    the key 'name' is written exactly [n] times and the heading exactly
    [n] times.  All prompts come first; then each invocation performs its
    store write and its heading write once its retry call has returned, so
    the [i]-th pair of writes is that of invocation [n - 1 - i]: the
    innermost invocation, whose answer was the first accepted one, writes
    first, and the outermost writes last. *)
Theorem setUserName_writes_per_prompt
    (user : nat → value) (calls : nat) (p p' : page) :
  setUserName user calls p = Some (tt, p') →
  ∃ n, 1 ≤ n ∧
       prompted p' = prompted p + n ∧
       count is_prompt (events_since p p') = n ∧
       count (is_store_write "name") (events_since p p') = n ∧
       count is_heading_write (events_since p p') = n ∧
       first_accepted user (prompted p) (n - 1) ∧
       events_since p p' =
         asks user (prompted p) n ++ writes_back user (prompted p) n ∧
       ∀ i, i < n →
         writes_back user (prompted p) n !! (2 * i) =
           Some (SetItem "name"
                   (to_string (user (prompted p + (n - 1 - i))))) ∧
         writes_back user (prompted p) n !! (2 * i + 1) =
           Some (SetTextContent
                   (greeting (user (prompted p + (n - 1 - i))))).
Proof.
  intros (k & Hk & Hn & Htr)%setUserName_SetUserName%SetUserName_trace.
  apply events_since_app in Htr.
  destruct (count_asks user (prompted p) (S k)) as (Ha1 & Ha2 & Ha3).
  destruct (count_writes_back user (prompted p) (S k)) as (Hw1 & Hw2 & Hw3).
  exists (S k). rewrite Htr, !count_app, Ha1, Ha2, Ha3, Hw1, Hw2, Hw3.
  split_and!; try lia; [|done|].
  - by replace (S k - 1) with k by lia.
  - intros i Hi. by apply writes_back_lookup.
Qed.

Lemma setUserName_writes_per_prompt_witness :
  setUserName empty_empty_Jo 3 (fresh ∅) = Some (tt, Jo_page) ∧
  ∃ n, 1 ≤ n ∧
       prompted Jo_page = 0 + n ∧
       count is_prompt (events_since (fresh ∅) Jo_page) = n ∧
       count (is_store_write "name") (events_since (fresh ∅) Jo_page) = n ∧
       count is_heading_write (events_since (fresh ∅) Jo_page) = n ∧
       first_accepted empty_empty_Jo 0 (n - 1) ∧
       events_since (fresh ∅) Jo_page =
         asks empty_empty_Jo 0 n ++ writes_back empty_empty_Jo 0 n ∧
       ∀ i, i < n →
         writes_back empty_empty_Jo 0 n !! (2 * i) =
           Some (SetItem "name" (to_string (empty_empty_Jo (0 + (n - 1 - i))))) ∧
         writes_back empty_empty_Jo 0 n !! (2 * i + 1) =
           Some (SetTextContent (greeting (empty_empty_Jo (0 + (n - 1 - i))))).
Proof.
  assert (setUserName empty_empty_Jo 3 (fresh ∅) = Some (tt, Jo_page)) as Hrun
    by (vm_compute; reflexivity).
  split; [exact Hrun|].
  exact (setUserName_writes_per_prompt empty_empty_Jo 3 (fresh ∅) Jo_page Hrun).
Defined.

(** ** Page load and the button *)

(** C4.  On a store with nothing under 'name', when the first prompt is
    answered "Alex", page load returns (any budget of at least one call is
    enough) with "Alex" stored under 'name' and the heading reading
    "Welcome, Alex!". *)
Theorem page_load_empty_store_Alex (user : nat → value) (p : page) (calls : nat) :
  localStorage p !! "name" = None →
  user (prompted p) = Str "Alex" →
  0 < calls →
  ∃ p', page_load user calls p = Some (tt, p') ∧
        localStorage p' !! "name" = Some "Alex" ∧
        myHeading p' = "Welcome, Alex!" ∧
        prompted p' = prompted p + 1.
Proof.
  intros Hunset Hans Hcalls. destruct calls as [|calls]; [lia|].
  rewrite page_load_unset by (by rewrite Hunset).
  rewrite setUserName_step. cbn [prompted record]. rewrite Hans. cbn [truthy].
  eexists. split; [done|]. cbn. split_and!; [by rewrite lookup_insert_eq|done|lia].
Qed.

Lemma page_load_empty_store_Alex_witness :
  ∃ p', page_load (answers [Str "Alex"] Null) 1 (fresh ∅) = Some (tt, p') ∧
        localStorage p' !! "name" = Some "Alex" ∧
        myHeading p' = "Welcome, Alex!" ∧
        prompted p' = 0 + 1.
Proof.
  apply (page_load_empty_store_Alex (answers [Str "Alex"] Null) (fresh ∅) 1);
    [reflexivity|reflexivity|lia].
Defined.

(** C5.  On a store that holds "Sam" under 'name', page load sets the
    heading to "Welcome, Sam!" and makes no prompt, under any budget; the
    store is read (twice) and not written: it is left as it was, and the
    run adds no [SetItem] to the trace. *)
Theorem page_load_stored_Sam (user : nat → value) (p : page) (calls : nat) :
  localStorage p !! "name" = Some "Sam" →
  ∃ p', page_load user calls p = Some (tt, p') ∧
        myHeading p' = "Welcome, Sam!" ∧
        prompted p' = prompted p ∧
        count is_prompt (events_since p p') = 0 ∧
        localStorage p' = localStorage p ∧
        events_since p p' =
          [GetItem "name"; GetItem "name"; SetTextContent "Welcome, Sam!"] ∧
        ∀ key, count (is_store_write key) (events_since p p') = 0.
Proof.
  intros Hsam. rewrite page_load_set by (by rewrite Hsam).
  rewrite Hsam. eexists. split; [done|].
  unfold events_since; cbn [trace myHeading prompted localStorage].
  rewrite drop_app_length. by cbn.
Qed.

Lemma page_load_stored_Sam_witness :
  ∃ p', page_load (answers [] Null) 0 (fresh {[ "name" := "Sam" ]}) = Some (tt, p') ∧
        myHeading p' = "Welcome, Sam!" ∧
        prompted p' = 0 ∧
        count is_prompt (events_since (fresh {[ "name" := "Sam" ]}) p') = 0 ∧
        localStorage p' = {[ "name" := "Sam" ]} ∧
        events_since (fresh {[ "name" := "Sam" ]}) p' =
          [GetItem "name"; GetItem "name"; SetTextContent "Welcome, Sam!"] ∧
        ∀ key, count (is_store_write key)
                 (events_since (fresh {[ "name" := "Sam" ]}) p') = 0.
Proof.
  exact (page_load_stored_Sam (answers [] Null) (fresh {[ "name" := "Sam" ]}) 0
           eq_refl).
Defined.

(** C6.  The button prompts again and overwrites whatever name is stored:
    on a store holding [old] under 'name' ("Sam"), when the first prompt is
    answered with a non-empty [name] ("Lee"), the click returns with [name]
    stored under 'name' and the heading reading "Welcome, " + name + "!",
    after exactly one prompt. *)
Theorem myButton_onclick_overwrites
    (user : nat → value) (p : page) (calls : nat) (old name : string) :
  localStorage p !! "name" = Some old →
  user (prompted p) = Str name →
  name ≠ "" →
  0 < calls →
  ∃ p', myButton_onclick user calls p = Some (tt, p') ∧
        localStorage p' !! "name" = Some name ∧
        myHeading p' = "Welcome, " +:+ name +:+ "!" ∧
        prompted p' = prompted p + 1 ∧
        count is_prompt (events_since p p') = 1.
Proof.
  intros _ Hans Hname Hcalls. destruct calls as [|calls]; [lia|].
  unfold myButton_onclick. rewrite setUserName_step, Hans.
  destruct name as [|c name]; [done|]. cbn [truthy].
  eexists. split; [done|]. cbn [localStorage myHeading prompted greeted asked].
  split_and!; [by rewrite lookup_insert_eq|done|lia|].
  unfold events_since; cbn [trace asked greeted].
  rewrite <- app_assoc, drop_app_length. by rewrite Hans.
Qed.

Lemma myButton_onclick_overwrites_witness :
  ∃ p', myButton_onclick (answers [Str "Lee"] Null) 1
          (fresh {[ "name" := "Sam" ]}) = Some (tt, p') ∧
        localStorage p' !! "name" = Some "Lee" ∧
        myHeading p' = "Welcome, Lee!" ∧
        prompted p' = 0 + 1 ∧
        count is_prompt (events_since (fresh {[ "name" := "Sam" ]}) p') = 1.
Proof.
  apply (myButton_onclick_overwrites (answers [Str "Lee"] Null)
           (fresh {[ "name" := "Sam" ]}) 1 "Sam" "Lee");
    [reflexivity|reflexivity|discriminate|lia].
Defined.

(** ** The image toggle *)

Lemma strict_eq_default (o : option string) :
  strict_eq (of_lookup o) (Str default_src) = bool_decide (o = Some default_src).
Proof.
  unfold strict_eq. destruct o as [s|]; cbn.
  - apply bool_decide_ext. split; congruence.
  - done.
Qed.

Lemma myImage_onclick_run p :
  myImage_onclick p =
    Some (tt, shown (if bool_decide (myImage p !! "src" = Some default_src)
                     then alternate_src else default_src) p).
Proof.
  unfold myImage_onclick, mbind, js_bind, getAttribute.
  rewrite strict_eq_default.
  case_bool_decide; unfold setAttribute, record, shown; cbn;
    by rewrite <- app_assoc.
Qed.

Lemma myImage_onclick_src_known p :
  ∃ p', myImage_onclick p = Some (tt, p') ∧ src_known p'.
Proof.
  rewrite myImage_onclick_run. eexists. split; [done|].
  unfold src_known, shown, known_srcs; cbn. rewrite lookup_insert_eq.
  eexists. split; [done|]. case_bool_decide; set_solver.
Qed.

Lemma clicks_S n p :
  clicks (S n) p =
    match myImage_onclick p with
    | Some (_, p') => clicks n p'
    | None => None
    end.
Proof.
  cbn [clicks]. unfold mbind at 1, js_bind at 1.
  by destruct (myImage_onclick p) as [[[] p']|].
Qed.

(** C7.  On an image whose source is the default one, one click makes the
    source the alternate one and a second click makes it the default one
    again; the two clicks together leave the attributes of the image as
    they were. *)
Theorem myImage_onclick_twice (p : page) :
  myImage p !! "src" = Some default_src →
  ∃ p1 p2, myImage_onclick p = Some (tt, p1) ∧
           myImage p1 !! "src" = Some alternate_src ∧
           myImage_onclick p1 = Some (tt, p2) ∧
           myImage p2 !! "src" = Some default_src ∧
           clicks 2 p = Some (tt, p2) ∧
           myImage p2 = myImage p.
Proof.
  intros Hsrc.
  assert (myImage_onclick p = Some (tt, shown alternate_src p)) as Hone.
  { rewrite myImage_onclick_run. by rewrite bool_decide_eq_true_2. }
  assert (myImage_onclick (shown alternate_src p) =
            Some (tt, shown default_src (shown alternate_src p))) as Htwo.
  { rewrite myImage_onclick_run. rewrite bool_decide_eq_false_2; [done|].
    cbn. by rewrite lookup_insert_eq. }
  exists (shown alternate_src p), (shown default_src (shown alternate_src p)).
  split_and!; try done.
  - cbn. by rewrite lookup_insert_eq.
  - cbn. by rewrite lookup_insert_eq.
  - by rewrite clicks_S, Hone, clicks_S, Htwo.
  - cbn. rewrite insert_insert_eq. by apply insert_id.
Qed.

Lemma myImage_onclick_twice_witness :
  ∃ p1 p2,
    myImage_onclick (Page {[ "src" := default_src; "alt" := "me" ]} "" ∅ 0 []) =
      Some (tt, p1) ∧
    myImage p1 !! "src" = Some alternate_src ∧
    myImage_onclick p1 = Some (tt, p2) ∧
    myImage p2 !! "src" = Some default_src ∧
    clicks 2 (Page {[ "src" := default_src; "alt" := "me" ]} "" ∅ 0 []) =
      Some (tt, p2) ∧
    myImage p2 = {[ "src" := default_src; "alt" := "me" ]}.
Proof.
  exact (myImage_onclick_twice
           (Page {[ "src" := default_src; "alt" := "me" ]} "" ∅ 0 []) eq_refl).
Defined.

(** C8.  On an image whose source is anything but the default one (the
    alternate one, any other string, or no source at all), one click makes
    the source the default one. *)
Theorem myImage_onclick_not_default (p : page) :
  myImage p !! "src" ≠ Some default_src →
  ∃ p', myImage_onclick p = Some (tt, p') ∧
        myImage p' !! "src" = Some default_src.
Proof.
  intros Hsrc. rewrite myImage_onclick_run, bool_decide_eq_false_2 by done.
  eexists. split; [done|]. cbn. by rewrite lookup_insert_eq.
Qed.

Lemma myImage_onclick_not_default_witness :
  (∃ p', myImage_onclick (Page {[ "src" := alternate_src ]} "" ∅ 0 []) =
           Some (tt, p') ∧
         myImage p' !! "src" = Some default_src) ∧
  (∃ p', myImage_onclick (Page {[ "src" := "images/User-Image.png" ]} "" ∅ 0 []) =
           Some (tt, p') ∧
         myImage p' !! "src" = Some default_src) ∧
  (∃ p', myImage_onclick (Page ∅ "" ∅ 0 []) = Some (tt, p') ∧
         myImage p' !! "src" = Some default_src).
Proof.
  split_and!.
  - apply (myImage_onclick_not_default (Page {[ "src" := alternate_src ]} "" ∅ 0 [])).
    vm_compute. discriminate.
  - apply (myImage_onclick_not_default
             (Page {[ "src" := "images/User-Image.png" ]} "" ∅ 0 [])).
    vm_compute. discriminate.
  - apply (myImage_onclick_not_default (Page ∅ "" ∅ 0 [])).
    vm_compute. discriminate.
Defined.

(** C9.  Whatever the source was to begin with, after [n ≥ 1] clicks the
    source is one of the two known ones, the default or the alternate; and
    from a page whose source is one of the two, a further click leaves it
    one of the two. *)
Theorem clicks_src_known :
  (∀ p n, 1 ≤ n → ∃ p', clicks n p = Some (tt, p') ∧ src_known p') ∧
  (∀ p, src_known p → ∃ p', myImage_onclick p = Some (tt, p') ∧ src_known p').
Proof.
  split.
  - intros p n Hn. revert p. induction Hn as [|n Hn IH]; intros p.
    + rewrite clicks_S.
      destruct (myImage_onclick_src_known p) as (p' & -> & Hknown). by exists p'.
    + rewrite clicks_S.
      destruct (myImage_onclick_src_known p) as (p' & -> & _). apply IH.
  - intros p _. apply myImage_onclick_src_known.
Qed.

Lemma clicks_src_known_witness :
  (∃ p', clicks 3 (Page {[ "src" := "broken.gif" ]} "" ∅ 0 []) = Some (tt, p') ∧
         src_known p') ∧
  (∃ p', myImage_onclick (Page {[ "src" := alternate_src ]} "" ∅ 0 []) =
           Some (tt, p') ∧
         src_known p').
Proof.
  split.
  - apply (proj1 clicks_src_known (Page {[ "src" := "broken.gif" ]} "" ∅ 0 []) 3).
    lia.
  - apply (proj2 clicks_src_known (Page {[ "src" := alternate_src ]} "" ∅ 0 [])).
    exists alternate_src. split; [reflexivity|]. unfold known_srcs. set_solver.
Defined.

(** * Further properties of the script *)

(** ** The image toggle: frame and parity *)

Lemma default_alternate_differ : default_src ≠ alternate_src.
Proof. discriminate. Qed.

Lemma clicks_frame n : ∀ p,
  ∃ p' l, clicks n p = Some (tt, p') ∧
          myHeading p' = myHeading p ∧
          localStorage p' = localStorage p ∧
          prompted p' = prompted p ∧
          (∀ a, a ≠ "src" → myImage p' !! a = myImage p !! a) ∧
          trace p' = trace p ++ l ∧
          count is_attr_read l = n ∧ count is_attr_write l = n ∧
          count is_prompt l = 0 ∧ count is_store_access l = 0 ∧
          count is_heading_write l = 0 ∧ length l = 2 * n ∧
          Forall is_src_access l.
Proof.
  induction n as [|n IH]; intros p.
  - exists p, []. rewrite app_nil_r. by split_and!.
  - rewrite clicks_S, myImage_onclick_run.
    set (src := if bool_decide _ then _ else _). set (q := shown src p).
    destruct (IH q)
      as (p' & l & -> & Hh & Hs & Hn & Himg & Htr & Hr & Hw & Hp & Ha
            & Hhw & Hlen & Hall).
    exists p', ([GetAttribute "src"; SetAttribute "src" src] ++ l).
    split_and!; try done.
    + intros a Ha'. rewrite Himg by done. subst q; cbn.
      by rewrite lookup_insert_ne.
    + rewrite Htr. subst q; cbn. by rewrite <- app_assoc.
    + by rewrite count_app, Hr.
    + by rewrite count_app, Hw.
    + rewrite length_app, Hlen. cbn. lia.
    + apply Forall_app. split; [|done].
      constructor; [by left|]. constructor; [|constructor].
      right. exists src. split; [done|].
      subst src. unfold known_srcs. case_bool_decide; set_solver.
Qed.

(** X1.  Clicking the image [n] times never fails and touches nothing but
    the [src] attribute: the heading, the store and the prompt counter are
    as before, every other attribute of the image keeps its value, and the
    run consists of exactly [n] reads and [n] writes of the attribute
    [src] and of nothing else: its [2 * n] events are all of these two
    kinds, each write being of one of the two known sources, with no
    prompt, no access to the store and no write to the heading. *)
Theorem clicks_touch_src_only (n : nat) (p : page) :
  ∃ p', clicks n p = Some (tt, p') ∧
        myHeading p' = myHeading p ∧
        localStorage p' = localStorage p ∧
        prompted p' = prompted p ∧
        (∀ a, a ≠ "src" → myImage p' !! a = myImage p !! a) ∧
        count is_attr_read (events_since p p') = n ∧
        count is_attr_write (events_since p p') = n ∧
        count is_prompt (events_since p p') = 0 ∧
        count is_store_access (events_since p p') = 0 ∧
        count is_heading_write (events_since p p') = 0 ∧
        length (events_since p p') = 2 * n ∧
        Forall is_src_access (events_since p p').
Proof.
  destruct (clicks_frame n p)
    as (p' & l & Hrun & Hh & Hs & Hn & Himg & Htr & Hr & Hw & Hp & Ha
          & Hhw & Hlen & Hall).
  exists p'. rewrite (events_since_app _ _ _ Htr). by split_and!.
Qed.

Lemma clicks_from_known n : ∀ p,
  (myImage p !! "src" = Some default_src →
   ∃ p', clicks n p = Some (tt, p') ∧
         myImage p' !! "src" =
           Some (if Nat.even n then default_src else alternate_src)) ∧
  (myImage p !! "src" = Some alternate_src →
   ∃ p', clicks n p = Some (tt, p') ∧
         myImage p' !! "src" =
           Some (if Nat.even n then alternate_src else default_src)).
Proof.
  induction n as [|n IH]; intros p.
  - split; intros Hsrc; by exists p.
  - rewrite Nat.even_succ, <- Nat.negb_even.
    split; intros Hsrc; rewrite clicks_S, myImage_onclick_run.
    + rewrite bool_decide_eq_true_2 by done.
      destruct (proj2 (IH (shown alternate_src p))) as (p' & -> & Hp').
      { cbn. by rewrite lookup_insert_eq. }
      exists p'. split; [done|]. rewrite Hp'. by destruct (Nat.even n).
    + rewrite bool_decide_eq_false_2
        by (rewrite Hsrc; intros [= Heq]; by apply default_alternate_differ).
      destruct (proj1 (IH (shown default_src p))) as (p' & -> & Hp').
      { cbn. by rewrite lookup_insert_eq. }
      exists p'. split; [done|]. rewrite Hp'. by destruct (Nat.even n).
Qed.

(** X2.  From the first click on, the source depends only on whether the
    image started on the default source and on the parity of the number of
    clicks: starting on the default source, an odd number of clicks shows
    the alternate one and an even number the default one; starting on
    anything else (or on no source), an odd number of clicks shows the
    default one and an even number the alternate one. *)
Theorem clicks_parity (n : nat) (p : page) :
  1 ≤ n →
  ∃ p', clicks n p = Some (tt, p') ∧
        myImage p' !! "src" = Some (src_after n (myImage p !! "src")).
Proof.
  intros Hn. destruct n as [|n]; [lia|].
  rewrite clicks_S, myImage_onclick_run. unfold src_after.
  rewrite Nat.even_succ, <- Nat.negb_even.
  case_bool_decide as Hsrc.
  - destruct (proj2 (clicks_from_known n (shown alternate_src p)))
      as (p' & -> & Hp').
    { cbn. by rewrite lookup_insert_eq. }
    exists p'. split; [done|]. rewrite Hp'. by destruct (Nat.even n).
  - destruct (proj1 (clicks_from_known n (shown default_src p)))
      as (p' & -> & Hp').
    { cbn. by rewrite lookup_insert_eq. }
    exists p'. split; [done|]. rewrite Hp'. by destruct (Nat.even n).
Qed.

Lemma clicks_parity_witness :
  ∃ p', clicks 4 (Page {[ "src" := "broken.gif" ]} "" ∅ 0 []) = Some (tt, p') ∧
        myImage p' !! "src" = Some alternate_src.
Proof.
  exact (clicks_parity 4 (Page {[ "src" := "broken.gif" ]} "" ∅ 0 [])
           ltac:(lia)).
Defined.

(** ** The name greeter: what a run leaves and what it never touches *)

Section NameGreeterMore.

Variable user : nat → value.

Lemma SetUserName_frame p p' :
  SetUserName user p p' →
  myImage p' = myImage p ∧
  ∀ key, key ≠ "name" → localStorage p' !! key = localStorage p !! key.
Proof.
  induction 1 as [p Hans|p p' Hans _ [IHimg IHstore]]; cbn.
  - split; [done|]. intros key Hkey. by rewrite lookup_insert_ne.
  - split; [done|]. intros key Hkey. rewrite lookup_insert_ne by done.
    by apply IHstore.
Qed.




Lemma SetUserName_prompts p p' :
  SetUserName user p p' → prompted p < prompted p'.
Proof. intros (k & _ & -> & _)%SetUserName_trace. lia. Qed.

(** The two sides of the [if] of page load, as runs. *)
Lemma page_load_cases calls p p' :
  page_load user calls p = Some (tt, p') →
  (truthy (of_lookup (localStorage p !! "name")) = true ∧
   p' = Page (myImage p)
             (greeting (of_lookup (localStorage p !! "name")))
             (localStorage p) (prompted p)
             (trace p ++ [GetItem "name"; GetItem "name";
                SetTextContent
                  (greeting (of_lookup (localStorage p !! "name")))])) ∨
  (truthy (of_lookup (localStorage p !! "name")) = false ∧
   SetUserName user (record (GetItem "name") p) p').
Proof.
  destruct (truthy (of_lookup (localStorage p !! "name"))) eqn:Hstored.
  - rewrite page_load_set by done. intros [= <-]. by left.
  - rewrite page_load_unset by done. intros Hrun%setUserName_SetUserName.
    by right.
Qed.

Lemma truthy_name_set p :
  truthy (of_lookup (localStorage p !! "name")) = true ↔ name_set p.
Proof.
  unfold name_set. destruct (localStorage p !! "name") as [[|c s]|]; cbn.
  - split; [done|]. by intros (s & [= <-] & Hs).
  - split; [|done]. intros _. by eexists.
  - split; [done|]. by intros (s & [=] & _).
Qed.

End NameGreeterMore.



(** X4.  When a page load or a button click has completed, the heading
    reads 'Welcome, ' + v + '!' for the value [v] then stored under 'name',
    and such a value is stored: heading and store never disagree, whichever
    answers were given. *)
Theorem heading_shows_stored_name
    (user : nat → value) (calls : nat) (p p' : page) :
  page_load user calls p = Some (tt, p') ∨
  myButton_onclick user calls p = Some (tt, p') →
  ∃ v, localStorage p' !! "name" = Some v ∧
       myHeading p' = "Welcome, " +:+ v +:+ "!".
Proof.
  intros [Hrun|Hrun].
  - by apply (page_load_heading_of_store user calls p).
  - apply setUserName_SetUserName, SetUserName_leaves in Hrun as (Hv & Hh & _).
    eauto.
Qed.

Lemma heading_shows_stored_name_witness :
  ∃ v, localStorage Jo_page !! "name" = Some v ∧
       myHeading Jo_page = "Welcome, " +:+ v +:+ "!".
Proof.
  apply (heading_shows_stored_name empty_empty_Jo 3 (fresh ∅) Jo_page).
  right. vm_compute. reflexivity.
Defined.

(** X5.  A completed page load has made no prompt exactly when the store
    held a non-empty name under 'name' on entry: an absent name and an
    empty one both lead to the prompt. *)
Theorem page_load_prompts_iff_unset
    (user : nat → value) (calls : nat) (p p' : page) :
  page_load user calls p = Some (tt, p') →
  (prompted p' = prompted p ↔ name_set p) ∧
  prompted p ≤ prompted p'.
Proof.
  intros [[Hset ->]|[Hunset Hrun%SetUserName_prompts]]%page_load_cases.
  - cbn. split; [|lia]. split; [|done]. intros _. by apply truthy_name_set.
  - cbn in Hrun. split; [|lia]. split; [lia|].
    intros Hset%truthy_name_set. congruence.
Qed.

Lemma page_load_prompts_iff_unset_witness :
  (prompted Alex_page = prompted (fresh {[ "theme" := "dark" ]}) ↔
   name_set (fresh {[ "theme" := "dark" ]})) ∧
  prompted (fresh {[ "theme" := "dark" ]}) ≤ prompted Alex_page.
Proof.
  apply (page_load_prompts_iff_unset only_Alex 1
           (fresh {[ "theme" := "dark" ]}) Alex_page).
  vm_compute. reflexivity.
Defined.

(** X6.  Whatever answers follow, a returning call of [setUserName] leaves
    under 'name' the answer to its first prompt, turned into a string (the
    string "null" when that dialog was dismissed, the empty string when it
    was left empty), and the heading greets that same first answer. *)
Theorem setUserName_stores_first_answer
    (user : nat → value) (calls : nat) (p p' : page) :
  setUserName user calls p = Some (tt, p') →
  localStorage p' !! "name" = Some (to_string (user (prompted p))) ∧
  myHeading p' = "Welcome, " +:+ to_string (user (prompted p)) +:+ "!".
Proof.
  intros Hrun%setUserName_SetUserName.
  by apply SetUserName_leaves in Hrun as (Hv & Hh & _).
Qed.

Lemma setUserName_stores_first_answer_witness :
  localStorage Jo_page !! "name" = Some (to_string (empty_empty_Jo 0)) ∧
  myHeading Jo_page = "Welcome, " +:+ to_string (empty_empty_Jo 0) +:+ "!".
Proof.
  apply (setUserName_stores_first_answer empty_empty_Jo 3 (fresh ∅) Jo_page).
  vm_compute. reflexivity.
Defined.

(** ** Across a reload, and beside the image *)

Lemma truthy_to_string v : v ≠ Str "" → truthy (Str (to_string v)) = true.
Proof. by destruct v as [|[|c s]]. Qed.

(** X7.  Persistence across a reload.  After a returning call of
    [setUserName] whose first answer was not the empty string, a page load
    on any page that has the store this call left (whatever its markup and
    whoever answers) completes under any call budget without a prompt,
    leaves the store alone and shows the heading the call had written. *)
Theorem reload_greets_again
    (user : nat → value) (calls : nat) (p p' : page)
    (user' : nat → value) (calls' : nat) (q : page) :
  setUserName user calls p = Some (tt, p') →
  user (prompted p) ≠ Str "" →
  localStorage q = localStorage p' →
  ∃ q', page_load user' calls' q = Some (tt, q') ∧
        myHeading q' = myHeading p' ∧
        prompted q' = prompted q ∧
        localStorage q' = localStorage p'.
Proof.
  intros Hrun%setUserName_SetUserName Hfirst Hstore.
  apply SetUserName_leaves in Hrun as (Hv & Hh & _).
  rewrite <- Hstore in Hv.
  rewrite page_load_set by (rewrite Hv; by apply truthy_to_string).
  eexists. split; [done|]. cbn. by rewrite Hv, Hh.
Qed.

Lemma reload_greets_again_witness :
  ∃ q', page_load only_Alex 0 (fresh (localStorage Alex_page)) = Some (tt, q') ∧
        myHeading q' = myHeading Alex_page ∧
        prompted q' = prompted (fresh (localStorage Alex_page)) ∧
        localStorage q' = localStorage Alex_page.
Proof.
  apply (reload_greets_again only_Alex 1
           (record (GetItem "name") (fresh {[ "theme" := "dark" ]})) Alex_page
           only_Alex 0 (fresh (localStorage Alex_page))).
  - vm_compute. reflexivity.
  - discriminate.
  - reflexivity.
Defined.

(** X8.  After a returning call of [setUserName] whose first answer was
    the empty string, the name it stored does not survive a reload: a page
    load on any page that has the store this call left takes the name as
    unset, so it does not return without a call of [setUserName], and
    every completed run of it has prompted again. *)
Theorem reload_prompts_again
    (user : nat → value) (calls : nat) (p p' : page)
    (user' : nat → value) (calls' : nat) (q q' : page) :
  setUserName user calls p = Some (tt, p') →
  user (prompted p) = Str "" →
  localStorage q = localStorage p' →
  page_load user' calls' q = Some (tt, q') →
  prompted q < prompted q' ∧ page_load user' 0 q = None.
Proof.
  intros Hrun%setUserName_SetUserName Hfirst Hstore Hreload.
  apply SetUserName_leaves in Hrun as (Hv & _ & _).
  rewrite <- Hstore, Hfirst in Hv.
  assert (truthy (of_lookup (localStorage q !! "name")) = false) as Hunset
    by (by rewrite Hv).
  split.
  - rewrite page_load_unset in Hreload by done.
    by apply setUserName_SetUserName, SetUserName_prompts in Hreload.
  - by rewrite page_load_unset.
Qed.

Lemma reload_prompts_again_witness :
  prompted (fresh (localStorage Jo_page)) < prompted Jo_reloaded ∧
  page_load (answers [Str "Jo"] Null) 0 (fresh (localStorage Jo_page)) = None.
Proof.
  apply (reload_prompts_again empty_empty_Jo 3 (fresh ∅) Jo_page
           (answers [Str "Jo"] Null) 1 (fresh (localStorage Jo_page)) Jo_reloaded).
  - vm_compute. reflexivity.
  - reflexivity.
  - reflexivity.
  - vm_compute. reflexivity.
Defined.

(** X9.  A returning call of [setUserName] writes the heading exactly once
    exactly when the answer to its first prompt is accepted, and the same
    holds of its writes to the key 'name'; after a rejected first answer
    both are written more than once. *)
Theorem setUserName_writes_once_iff
    (user : nat → value) (calls : nat) (p p' : page) :
  setUserName user calls p = Some (tt, p') →
  (count is_heading_write (events_since p p') = 1 ↔
   truthy (user (prompted p)) = true) ∧
  (count (is_store_write "name") (events_since p p') = 1 ↔
   truthy (user (prompted p)) = true) ∧
  (truthy (user (prompted p)) = false →
   1 < count is_heading_write (events_since p p') ∧
   1 < count (is_store_write "name") (events_since p p')).
Proof.
  intros (k & [Hk Hbefore] & _ & Htr)%setUserName_SetUserName%SetUserName_trace.
  rewrite (events_since_app _ _ _ Htr), !count_app.
  destruct (count_asks user (prompted p) (S k)) as (_ & -> & ->).
  destruct (count_writes_back user (prompted p) (S k)) as (_ & -> & ->).
  destruct k as [|k].
  - rewrite Nat.add_0_r in Hk. split_and!; [done|done|congruence].
  - specialize (Hbefore 0 ltac:(lia)). rewrite Nat.add_0_r in Hbefore.
    split_and!.
    + split; [lia|congruence].
    + split; [lia|congruence].
    + intros _. lia.
Qed.

Lemma setUserName_writes_once_iff_witness :
  (count is_heading_write (events_since (fresh ∅) Jo_page) = 1 ↔
   truthy (empty_empty_Jo 0) = true) ∧
  (count (is_store_write "name") (events_since (fresh ∅) Jo_page) = 1 ↔
   truthy (empty_empty_Jo 0) = true) ∧
  (truthy (empty_empty_Jo 0) = false →
   1 < count is_heading_write (events_since (fresh ∅) Jo_page) ∧
   1 < count (is_store_write "name") (events_since (fresh ∅) Jo_page)).
Proof.
  apply (setUserName_writes_once_iff empty_empty_Jo 3 (fresh ∅) Jo_page).
  vm_compute. reflexivity.
Defined.

(** A call of [setUserName] reads nothing of the page but the prompt
    counter: on a page with the same counter it takes the same course. *)
Lemma setUserName_transfer (user : nat → value) calls : ∀ p p' q,
  setUserName user calls p = Some (tt, p') →
  prompted q = prompted p →
  ∃ q', setUserName user calls q = Some (tt, q') ∧
        prompted q' = prompted p' ∧
        myHeading q' = myHeading p' ∧
        myImage q' = myImage q ∧
        (localStorage q = localStorage p → localStorage q' = localStorage p').
Proof.
  induction calls as [|calls IH]; intros p p' q Hrun Hq; [done|].
  rewrite setUserName_step in *. rewrite Hq.
  destruct (truthy (user (prompted p))).
  - injection Hrun as <-. eexists. split; [done|]. cbn.
    split_and!; try done; [by rewrite Hq|by intros ->].
  - destruct (setUserName user calls (asked user p)) as [[[] p'']|] eqn:Hin;
      [|done].
    injection Hrun as <-.
    destruct (IH _ _ (asked user q) Hin) as (q'' & -> & Hn & Hh & Himg & Hst).
    { cbn. by rewrite Hq. }
    eexists. split; [done|]. cbn in *.
    split_and!; try done. intros Heq. by rewrite Hst.
Qed.

(** X10.  The two behaviours of the page do not interfere.  When a call of
    [setUserName] returns, clicking the image before it or after it comes
    to the same: both orders run to completion under the same budget and
    leave the same image attributes, heading, store and prompt counter. *)
Theorem click_and_setUserName_commute
    (user : nat → value) (calls : nat) (p q1 : page) :
  setUserName user calls p = Some (tt, q1) →
  ∃ p1 p2 q2, myImage_onclick p = Some (tt, p1) ∧
              setUserName user calls p1 = Some (tt, p2) ∧
              myImage_onclick q1 = Some (tt, q2) ∧
              same_state p2 q2.
Proof.
  intros Hrun.
  pose proof (setUserName_SetUserName _ _ _ _ Hrun) as Hrel.
  apply SetUserName_frame in Hrel as [Himg _].
  rewrite !myImage_onclick_run, Himg.
  set (src := if bool_decide _ then _ else _).
  destruct (setUserName_transfer user calls p q1 (shown src p) Hrun eq_refl)
    as (p2 & Hrun2 & Hn & Hh & Himg2 & Hst).
  exists (shown src p), p2, (shown src q1). split_and!; try done.
  unfold same_state; cbn. rewrite Himg2, Hh, Hn, Himg. split_and!; try done.
  by apply Hst.
Qed.

Lemma click_and_setUserName_commute_witness :
  ∃ p1 p2 q2, myImage_onclick (fresh ∅) = Some (tt, p1) ∧
              setUserName empty_empty_Jo 3 p1 = Some (tt, p2) ∧
              myImage_onclick Jo_page = Some (tt, q2) ∧
              same_state p2 q2.
Proof.
  apply (click_and_setUserName_commute empty_empty_Jo 3 (fresh ∅) Jo_page).
  vm_compute. reflexivity.
Defined.
